(** * zktrie.Hash: the 32-byte field-element codec of core/types/zktrie/hash.go

    A shallow embedding of the conversions between the storage bytes of a
    [Hash], its integer value, its hexadecimal and decimal texts, followed
    by the properties stated about them. *)

From Stdlib Require Import Decimal DecimalString DecimalN DecimalPos.
From Stdlib.Strings Require Import Ascii String Byte.
From Stdlib Require Import ZArith NArith List Lia Bool.
Import ListNotations.

Local Open Scope list_scope.

(** ** Go values: slices of bytes, results and panics *)

Module Go.

(** [make([]byte, n)]: a fresh slice of [n] zero bytes. *)
Definition make (n : nat) : list byte := repeat x00 n.

(** [o[i] = x]. The index is in range wherever the code below assigns;
    Go would panic otherwise, here the slice is left as it is. *)
Fixpoint set_index (o : list byte) (i : nat) (x : byte) : list byte :=
  match o, i with
  | [], _ => []
  | _ :: t, O => x :: t
  | y :: t, S j => y :: set_index t j x
  end.

(** [copy(dst, src)]: the contents of [dst] afterwards. The first
    [min (len dst) (len src)] bytes come from [src], the rest stay. *)
Definition copy (dst src : list byte) : list byte :=
  firstn (length dst) src ++ skipn (length src) dst.

(** [s[i:]] on a string: [s] without its first [i] bytes. The index is in
    range wherever the code below slices. *)
Fixpoint string_from (i : nat) (s : string) : string :=
  match i, s with
  | O, _ => s
  | S j, String _ rest => string_from j rest
  | S _, EmptyString => EmptyString
  end.

(** The errors [hash.go] builds with [fmt.Errorf]. *)
Inductive error : Type :=
| ErrExpected32 (found : nat)  (* "expected 32 bytes, found %d bytes" *)
| ErrNotInField                (* "NewBigIntFromHashBytes: Value not inside the Finite Field" *)
| ErrParse.                    (* "can not parse string to Hash" *)

(** A Go result pair [(p, err)]: a pointer that may be nil, and an error
    that may be nil. *)
Definition result (T : Type) : Type := (option T * option error)%type.

Definition ok {T : Type} (x : T) : result T := (Some x, None).
Definition fail {T : Type} (e : error) : result T := (None, Some e).

(** What a call does: it returns, or the runtime panics. *)
Inductive panic : Type :=
| NilPointerDereference.

Inductive outcome (T : Type) : Type :=
| Returns (v : T)
| Panics (p : panic).

Arguments Returns {T} v.
Arguments Panics {T} p.

End Go.

(** ** math/big: an arbitrary-precision integer is a [Z] *)

Module Big.

Definition byte_of_N (n : N) : byte :=
  match Byte.of_N (n mod 256) with
  | Some b => b
  | None => x00
  end.

(** The base-256 digits of [n], least significant first, without high
    zero digits; [fuel] bounds the number of digits. *)
Fixpoint le_bytes_fuel (fuel : nat) (n : N) : list byte :=
  match fuel with
  | O => []
  | S fuel' =>
      if (n =? 0)%N then []
      else byte_of_N n :: le_bytes_fuel fuel' (n / 256)
  end.

Definition le_bytes (n : N) : list byte :=
  le_bytes_fuel (N.to_nat (N.size n)) n.

(** [x.Bytes()]: the absolute value of [x] as a big-endian byte slice
    (empty for zero). *)
Definition Bytes (x : Z) : list byte := rev (le_bytes (Z.abs_N x)).

(** The number a little-endian byte sequence stands for. *)
Definition le_value (l : list byte) : N :=
  fold_right (fun b acc => (Byte.to_N b + 256 * acc)%N) 0%N l.

Definition be_value (buf : list byte) : N :=
  fold_left (fun acc b => (acc * 256 + Byte.to_N b)%N) buf 0%N.

(** [new(big.Int).SetBytes(buf)]: [buf] read as a big-endian unsigned
    integer. The call returns its receiver, which is never nil. *)
Definition SetBytes (buf : list byte) : Z := Z.of_N (be_value buf).

Definition NewInt (x : Z) : Z := x.

(** [x.String()]: the decimal text of [x], with a minus sign when
    negative. *)
Definition String_ (x : Z) : string :=
  NilZero.string_of_int (Z.to_int x).

Definition is_digit (c : ascii) : bool :=
  let n := N_of_ascii c in ((48 <=? n) && (n <=? 57))%N.

Fixpoint all_digits (s : string) : bool :=
  match s with
  | EmptyString => true
  | String c rest => is_digit c && all_digits rest
  end.

(** The digits of a base-10 literal: one decimal digit at least and
    nothing else. *)
Definition scan_digits (s : string) : option N :=
  option_map N.of_uint (NilZero.uint_of_string s).

(** [new(big.Int).SetString(s, 10)]: an optional sign, then digits; the
    whole string has to be consumed. [None] stands for [ok == false]. *)
Definition SetString10 (s : string) : option Z :=
  match s with
  | String "+"%char rest => option_map Z.of_N (scan_digits rest)
  | String "-"%char rest => option_map (fun n => Z.opp (Z.of_N n)) (scan_digits rest)
  | _ => option_map Z.of_N (scan_digits s)
  end.

(** A text without its sign, if it starts with one. *)
Definition unsigned_part (s : string) : string :=
  match s with
  | String "+"%char rest => rest
  | String "-"%char rest => rest
  | _ => s
  end.

(** A base-10 literal: an optional sign, then one decimal digit at least
    and nothing else. *)
Definition is_decimal_literal (s : string) : bool :=
  match unsigned_part s with
  | EmptyString => false
  | String c rest => all_digits (String c rest)
  end.

End Big.

(** ** encoding/hex *)

Module Hex.

Definition hextable : string := "0123456789abcdef".

Definition hexdigit (n : N) : ascii :=
  match String.get (N.to_nat n) hextable with
  | Some c => c
  | None => "0"%char
  end.

(** [hex.EncodeToString(src)]: two digits of [hextable] for each byte,
    the high nibble first. *)
Fixpoint EncodeToString (src : list byte) : string :=
  match src with
  | [] => EmptyString
  | v :: rest =>
      String (hexdigit (N.shiftr (Byte.to_N v) 4))
        (String (hexdigit (N.land (Byte.to_N v) 15))
           (EncodeToString rest))
  end.

(** The value of a hexadecimal digit, of either case; [None] for any
    other character. *)
Definition fromHexChar (c : ascii) : option N :=
  let n := N_of_ascii c in
  if ((48 <=? n) && (n <=? 57))%N then Some (n - 48)%N
  else if ((97 <=? n) && (n <=? 102))%N then Some (n - 97 + 10)%N
  else if ((65 <=? n) && (n <=? 70))%N then Some (n - 65 + 10)%N
  else None.

(** The character is a hexadecimal digit. *)
Definition is_hex_char (c : ascii) : bool :=
  match fromHexChar c with Some _ => true | None => false end.

Fixpoint all_hex (s : string) : bool :=
  match s with
  | EmptyString => true
  | String c rest => is_hex_char c && all_hex rest
  end.

(** The text has a character that is no hexadecimal digit. *)
Definition contains_non_hex (s : string) : bool := negb (all_hex s).

(** How many hexadecimal digits the text starts with. *)
Fixpoint hex_run (s : string) : nat :=
  match s with
  | EmptyString => O
  | String c rest => if is_hex_char c then S (hex_run rest) else O
  end.

(** The errors of the decoder. *)
Inductive decode_error : Type :=
| InvalidByteError (c : ascii)
| ErrLength.

(** [hex.DecodeString(s)]: the characters are read two at a time, each
    pair of digits giving a byte; at the first character that is no digit,
    and at a last character left alone, decoding stops with an error. If
    the input is malformed, the bytes decoded before the error are
    returned with it. *)
Fixpoint DecodeString (s : string) : list byte * option decode_error :=
  match s with
  | EmptyString => ([], None)
  | String p EmptyString =>
      ([], Some (if is_hex_char p then ErrLength else InvalidByteError p))
  | String p (String q rest) =>
      match fromHexChar p, fromHexChar q with
      | None, _ => ([], Some (InvalidByteError p))
      | Some _, None => ([], Some (InvalidByteError q))
      | Some a, Some b =>
          let '(l, err) := DecodeString rest in
          (Big.byte_of_N (a * 16 + b) :: l, err)
      end
  end.

(** A digit or a letter from a to f, in lower case. *)
Definition is_lower_hex_char (c : ascii) : bool :=
  let n := N_of_ascii c in
  (((48 <=? n) && (n <=? 57)) || ((97 <=? n) && (n <=? 102)))%N.

Fixpoint all_lower_hex (s : string) : bool :=
  match s with
  | EmptyString => true
  | String c rest => is_lower_hex_char c && all_lower_hex rest
  end.

End Hex.

(** ** Dependencies of hash.go that are not among the sources *)

Module Constants.

(** Modelled from the spec: the modulus Q, "a fixed prime modulus Q (the
    scalar field order of the underlying elliptic curve used by the trie's
    hash function)". hash.go reaches it through go-iden3-crypto, whose
    [constants.Q] is the order of the BN254 scalar field. *)
Definition Q : Z :=
  21888242871839275222246405745257275088548364400416034343698204186575808495617%Z.

End Constants.

Module Utils.

(** Modelled from the spec: the field-membership test
    [utils.CheckBigIntInField] of go-iden3-crypto, "fails ... if the
    decoded integer is not strictly less than Q". *)
Definition CheckBigIntInField (a : Z) : bool := (a <? Constants.Q)%Z.

End Utils.

Module Common.

(** Modelled from the spec: the hexadecimal decoder [common.FromHex] of
    package common, with its helpers [has0xPrefix] and [Hex2Bytes]; the
    package is not among the sources. hash.go fixes its type, a string in
    and a byte slice out with no error, so [NewHashFromHex] can fail only
    where [NewHashFromBytes] refuses the slice. The spec fixes it on
    well-formed text: "0x12" is "a 1-byte-equivalent payload", and the text
    of [Hex] decodes to the bytes of the hash. On every other text it is
    taken as go-ethereum defines it in common/bytes.go, which is what the
    definitions of this module follow, line by line. *)

(** Not among the sources, as common/bytes.go has it: [has0xPrefix]
    validates that [str] begins with '0x' or '0X'; the last branch is
    [len(str) >= 2] failing. *)
Definition has0xPrefix (str : string) : bool :=
  match str with
  | String c0 (String c1 _) =>
      (c0 =? "0")%char && ((c1 =? "x")%char || (c1 =? "X")%char)
  | _ => false
  end.

(** Not among the sources, as common/bytes.go has it: [Hex2Bytes] returns
    the bytes represented by the hexadecimal string [str]; the decoder's
    error is dropped, and the bytes decoded before it are kept. *)
Definition Hex2Bytes (str : string) : list byte :=
  let '(h, _) := Hex.DecodeString str in h.

(** The first step of [common.FromHex], [if has0xPrefix(s) { s = s[2:] }]:
    "0x12" is "a 1-byte-equivalent payload". *)
Definition payload (s : string) : string :=
  if has0xPrefix s then Go.string_from 2 s else s.

(** The second step of [common.FromHex], as common/bytes.go has it:
    [if len(s)%2 == 1 { s = "0" + s }]. *)
Definition padded (s : string) : string :=
  if Nat.odd (String.length s) then String "0" s else s.

(** Modelled from the spec: [common.FromHex], as described at the head of
    this module, returns the bytes represented by the hexadecimal string
    [s]; [s] may be prefixed with "0x". *)
Definition FromHex (s : string) : list byte :=
  Hex2Bytes (padded (payload s)).

End Common.

(** ** core/types/zktrie/hash.go *)

Module Zktrie.

Import Go.

Definition numCharPrint : nat := 8.

(** [ElemBytesLen] is the length of the Hash byte array. *)
Definition ElemBytesLen : nat := 32.

(** [type Hash [32]byte]: the storage bytes. The type fixes the length,
    which the list does not carry: [wf_Hash] states it. *)
Definition Hash : Type := list byte.

Definition wf_Hash (h : Hash) : Prop := length h = 32.

Definition HashZero : Hash := repeat x00 32.

(** The loop of [ReverseByteOrder]: [o[len(b)-1-i] = b[i]] for each
    index [i] of [b], of which [rest] is what is left from [i] on. *)
Fixpoint reverse_loop (n i : nat) (rest o : list byte) : list byte :=
  match rest with
  | [] => o
  | x :: rest' => reverse_loop n (S i) rest' (set_index o (n - 1 - i) x)
  end.

(** [ReverseByteOrder] swaps the order of the bytes in the slice. *)
Definition ReverseByteOrder (b : list byte) : list byte :=
  reverse_loop (length b) 0 b (make (length b)).

(** [BigInt] returns the [*big.Int] representation of the [*Hash]. The
    comparison of [SetBytes]'s result with nil never holds, [SetBytes]
    returns the integer [new] has made: only the second return runs. *)
Definition Hash_BigInt (h : Hash) : Z :=
  Big.SetBytes (ReverseByteOrder h).

(** [MarshalText] implements the marshaler for the Hash type. *)
Definition Hash_MarshalText (h : Hash) : list byte * option error :=
  (list_byte_of_string (Big.String_ (Hash_BigInt h)), None).

(** [String] returns decimal representation in string format of the
    Hash. *)
Definition Hash_String (h : Hash) : string :=
  let s := Big.String_ (Hash_BigInt h) in
  if String.length s <? numCharPrint then s
  else (substring 0 numCharPrint s ++ "...")%string.

(** [Hex] returns the hexadecimal representation of the Hash. *)
Definition Hash_Hex (h : Hash) : string := Hex.EncodeToString h.

(** [Bytes] returns the little endian [[]byte] representation of the
    [*Hash], which always is 32 bytes length. *)
Definition Hash_Bytes (h : Hash) : list byte :=
  let b := copy (make 32) h in
  ReverseByteOrder b.

(** [NewBigIntFromHashBytes] returns a [*big.Int] from a byte array. *)
Definition NewBigIntFromHashBytes (b : list byte) : result Z :=
  if negb (length b =? ElemBytesLen) then fail (ErrExpected32 (length b))
  else
    let bi := Big.SetBytes (firstn ElemBytesLen b) in
    if negb (Utils.CheckBigIntInField bi) then fail ErrNotInField
    else ok bi.

(** [NewHashFromBigInt] returns a [*Hash] representation of the given
    [*big.Int]. *)
Definition NewHashFromBigInt (b : Z) : Hash :=
  let r := make 32 in
  copy r (ReverseByteOrder (Big.Bytes b)).

(** [NewHashFromBytes] returns a [*Hash] from a byte array, swapping the
    endianness in the process. *)
Definition NewHashFromBytes (b : list byte) : result Hash :=
  if negb (length b =? ElemBytesLen) then fail (ErrExpected32 (length b))
  else
    let h := make 32 in
    ok (copy h (ReverseByteOrder b)).

(** [NewHashFromHex] returns a [*Hash] representation of the given hex
    string. *)
Definition NewHashFromHex (h : string) : result Hash :=
  NewHashFromBytes (ReverseByteOrder (Common.FromHex h)).

(** [NewHashFromString] returns a [*Hash] representation of the given
    decimal string. *)
Definition NewHashFromString (s : string) : result Hash :=
  match Big.SetString10 s with
  | None => fail ErrParse
  | Some bi => ok (NewHashFromBigInt bi)
  end.

(** [UnmarshalText] implements the unmarshaler for the Hash type. The
    receiver [h] is the array the method writes to, passed in and handed
    back with the error; [ha[:]] dereferences [ha], and a nil [ha] makes
    the runtime panic before anything is copied or returned. *)
Definition Hash_UnmarshalText (h : Hash) (b : list byte)
  : outcome (Hash * option error) :=
  let '(ha, err) := NewHashFromString (string_of_list_byte b) in
  match ha with
  | None => Panics NilPointerDereference
  | Some a => Returns (copy h a, err)
  end.

End Zktrie.

Import Go Zktrie.

(** ** The cases of TestHashParsers, run on the embedding *)

Example test_String_0 : Hash_String (NewHashFromBigInt 0) = "0"%string.
Proof. vm_compute. reflexivity. Qed.

Example test_String_1234567 :
  Hash_String (NewHashFromBigInt 1234567) = "1234567"%string.
Proof. vm_compute. reflexivity. Qed.

Example test_String_12345678 :
  Hash_String (NewHashFromBigInt 12345678) = "12345678..."%string.
Proof. vm_compute. reflexivity. Qed.

Example test_Hex_big :
  Hash_Hex (NewHashFromBigInt
    4932297968297298434239270129193057052722409868268166443802652458940273154854)
  = "265baaf161e875c372d08e50f52abddc01d32efc93e90290bb8b3d9ceb94e70a"%string.
Proof. vm_compute. reflexivity. Qed.

Example test_FromHex_0x12 :
  NewHashFromHex "0x12" = fail (ErrExpected32 1).
Proof. vm_compute. reflexivity. Qed.

Example test_limit_Q_minus_1 :
  Hash_BigInt (NewHashFromBigInt (Constants.Q - 1)) = (Constants.Q - 1)%Z
  /\ NewBigIntFromHashBytes (Hash_Bytes (NewHashFromBigInt (Constants.Q - 1)))
     = ok (Constants.Q - 1)%Z.
Proof. vm_compute. split; reflexivity. Qed.

(** ** Slices *)

Section SliceFacts.

Lemma make_length (n : nat) : length (make n) = n.
Proof. apply repeat_length. Qed.

Lemma make_snoc (n : nat) : make (S n) = make n ++ [x00].
Proof.
  unfold make. induction n as [|n IH]; [reflexivity|].
  change (repeat x00 (S (S n))) with (x00 :: repeat x00 (S n)).
  rewrite IH at 1. reflexivity.
Qed.

Lemma set_index_middle (l1 l2 : list byte) (y x : byte) :
  set_index (l1 ++ y :: l2) (length l1) x = l1 ++ x :: l2.
Proof.
  induction l1 as [|a l1 IH]; simpl; [reflexivity|].
  now rewrite IH.
Qed.

(** The invariant of the loop: with [done] already written, reversed, at
    the end of [o], the bytes of [rest] fill the zeros in front of it. *)
Lemma reverse_loop_inv (rest done : list byte) :
  reverse_loop (length done + length rest) (length done) rest
               (make (length rest) ++ rev done)
  = rev rest ++ rev done.
Proof.
  revert done. induction rest as [|x rest IH]; intros done.
  - reflexivity.
  - cbn [reverse_loop length rev].
    replace (length done + S (length rest) - 1 - length done)
      with (length (make (length rest))) by (rewrite make_length; lia).
    rewrite make_snoc, <- app_assoc. cbn [app].
    rewrite set_index_middle.
    specialize (IH (done ++ [x])).
    rewrite length_app, rev_app_distr in IH. cbn [length rev app] in IH.
    replace (length done + 1 + length rest)
      with (length done + S (length rest)) in IH by lia.
    replace (length done + 1) with (S (length done)) in IH by lia.
    rewrite IH, <- app_assoc. reflexivity.
Qed.

Lemma ReverseByteOrder_rev (b : list byte) : ReverseByteOrder b = rev b.
Proof.
  unfold ReverseByteOrder.
  pose proof (reverse_loop_inv b []) as H.
  cbn [length rev Nat.add] in H. now rewrite !app_nil_r in H.
Qed.

Lemma ReverseByteOrder_length (b : list byte) :
  length (ReverseByteOrder b) = length b.
Proof. rewrite ReverseByteOrder_rev. apply length_rev. Qed.

Lemma ReverseByteOrder_involutive (b : list byte) :
  ReverseByteOrder (ReverseByteOrder b) = b.
Proof. rewrite !ReverseByteOrder_rev. apply rev_involutive. Qed.

Lemma copy_length (dst src : list byte) :
  length (copy dst src) = length dst.
Proof.
  unfold copy. rewrite length_app, length_firstn, length_skipn. lia.
Qed.

(** Copying a source as long as the destination replaces all of it. *)
Lemma copy_same_length (dst src : list byte) :
  length src = length dst -> copy dst src = src.
Proof.
  intros H. unfold copy.
  rewrite <- H, firstn_all. rewrite H, skipn_all. apply app_nil_r.
Qed.

(** Copying a shorter source into zeros pads it with zeros. *)
Lemma copy_make_short (n : nat) (src : list byte) :
  length src <= n -> copy (make n) src = src ++ make (n - length src).
Proof.
  intros H. unfold copy. rewrite make_length.
  rewrite firstn_all2 by exact H.
  f_equal. unfold make. clear H. revert n.
  induction src as [|a src IH]; intros n; cbn [length skipn].
  - now rewrite Nat.sub_0_r.
  - destruct n; [reflexivity|]. cbn [repeat skipn]. apply IH.
Qed.

End SliceFacts.

(** ** Integers and their bytes *)

Section BigFacts.

Import Big.
Local Open Scope N_scope.

Lemma to_N_lt (b : byte) : Byte.to_N b < 256.
Proof. pose proof (Byte.to_N_bounded b). lia. Qed.

Lemma byte_of_N_to_N (n : N) : Byte.to_N (byte_of_N n) = n mod 256.
Proof.
  unfold byte_of_N. destruct (Byte.of_N (n mod 256)) as [b|] eqn:E.
  - now apply Byte.to_of_N.
  - apply Byte.of_N_None_iff in E.
    pose proof (N.mod_upper_bound n 256). lia.
Qed.

Lemma byte_of_N_cons (b : byte) (v : N) :
  byte_of_N (Byte.to_N b + 256 * v) = b.
Proof.
  unfold byte_of_N.
  replace ((Byte.to_N b + 256 * v) mod 256) with (Byte.to_N b).
  - now rewrite Byte.of_to_N.
  - rewrite N.mul_comm, N.Div0.mod_add.
    symmetry. apply N.mod_small, to_N_lt.
Qed.

Lemma div_cons (b : byte) (v : N) : (Byte.to_N b + 256 * v) / 256 = v.
Proof.
  rewrite N.mul_comm, N.div_add by lia.
  rewrite N.div_small by apply to_N_lt. reflexivity.
Qed.

Lemma le_value_cons (b : byte) (l : list byte) :
  le_value (b :: l) = Byte.to_N b + 256 * le_value l.
Proof. reflexivity. Qed.

Lemma be_value_snoc (l : list byte) (b : byte) :
  be_value (l ++ [b]) = be_value l * 256 + Byte.to_N b.
Proof. unfold be_value. now rewrite fold_left_app. Qed.

(** Reading the reversed sequence big-endian reads the sequence
    little-endian. *)
Lemma be_value_rev (l : list byte) : be_value (rev l) = le_value l.
Proof.
  induction l as [|b l IH]; [reflexivity|].
  cbn [rev]. rewrite be_value_snoc, IH, le_value_cons. lia.
Qed.

Lemma le_value_app_zeros (l : list byte) (k : nat) :
  le_value (l ++ make k) = le_value l.
Proof.
  induction l as [|b l IH]; cbn [app].
  - induction k as [|k IHk]; [reflexivity|].
    change (make (S k)) with (x00 :: make k).
    rewrite le_value_cons, IHk. reflexivity.
  - now rewrite !le_value_cons, IH.
Qed.

Lemma le_value_lt (l : list byte) : le_value l < 256 ^ N.of_nat (length l).
Proof.
  induction l as [|b l IH]; [reflexivity|].
  rewrite le_value_cons. cbn [length].
  rewrite Nat2N.inj_succ, N.pow_succ_r'.
  pose proof (to_N_lt b). lia.
Qed.

(** With fuel for every bit of [n], the digits are those of [n]. *)
Lemma le_bytes_fuel_value (fuel : nat) (n : N) :
  n < 2 ^ N.of_nat fuel -> le_value (le_bytes_fuel fuel n) = n.
Proof.
  revert n. induction fuel as [|fuel IH]; intros n Hn.
  - cbn in Hn. cbn. lia.
  - cbn [le_bytes_fuel]. destruct (N.eqb_spec n 0) as [->|Hz]; [reflexivity|].
    rewrite le_value_cons, byte_of_N_to_N, IH.
    + rewrite (N.div_mod n 256) at 3 by lia. lia.
    + rewrite Nat2N.inj_succ, N.pow_succ_r' in Hn.
      apply N.Div0.div_lt_upper_bound. lia.
Qed.

Lemma le_bytes_value (n : N) : le_value (le_bytes n) = n.
Proof.
  unfold le_bytes. apply le_bytes_fuel_value.
  rewrite N2Nat.id. apply N.size_gt.
Qed.

(** Fuel beyond the bits of [n] changes nothing. *)
Lemma le_bytes_fuel_enough (f1 f2 : nat) (n : N) :
  n < 2 ^ N.of_nat f1 -> n < 2 ^ N.of_nat f2 ->
  le_bytes_fuel f1 n = le_bytes_fuel f2 n.
Proof.
  revert f2 n. induction f1 as [|f1 IH]; intros f2 n H1 H2.
  - cbn in H1. assert (n = 0) as -> by lia. now destruct f2.
  - destruct f2 as [|f2].
    + cbn in H2. assert (n = 0) as -> by lia. reflexivity.
    + cbn [le_bytes_fuel]. destruct (N.eqb_spec n 0); [reflexivity|].
      f_equal. rewrite Nat2N.inj_succ, N.pow_succ_r' in H1, H2.
      apply IH; apply N.Div0.div_lt_upper_bound; lia.
Qed.

(** The equation [le_bytes] satisfies, free of fuel. *)
Lemma le_bytes_unfold (n : N) :
  le_bytes n = if n =? 0 then [] else byte_of_N n :: le_bytes (n / 256).
Proof.
  pose proof (N.size_gt n) as Hn.
  unfold le_bytes at 1.
  rewrite (le_bytes_fuel_enough _ (S (N.to_nat (N.size n))) n).
  - cbn [le_bytes_fuel]. destruct (N.eqb_spec n 0); [reflexivity|].
    f_equal. unfold le_bytes. apply le_bytes_fuel_enough.
    + rewrite N2Nat.id.
      apply N.le_lt_trans with n; [|exact Hn].
      apply N.Div0.div_le_upper_bound. lia.
    + rewrite N2Nat.id. apply N.size_gt.
  - now rewrite N2Nat.id.
  - rewrite Nat2N.inj_succ, N2Nat.id, N.pow_succ_r'. lia.
Qed.

Lemma le_bytes_fuel_length (fuel : nat) (n : N) (k : nat) :
  n < 256 ^ N.of_nat k -> (length (le_bytes_fuel fuel n) <= k)%nat.
Proof.
  revert n k. induction fuel as [|fuel IH]; intros n k Hn; cbn [le_bytes_fuel].
  - cbn. lia.
  - destruct (N.eqb_spec n 0) as [->|Hz]; [cbn; lia|].
    destruct k as [|k]; [cbn in Hn; lia|].
    cbn [length]. apply le_n_S, IH.
    rewrite Nat2N.inj_succ, N.pow_succ_r' in Hn.
    apply N.Div0.div_lt_upper_bound. lia.
Qed.

Lemma le_bytes_length (n : N) (k : nat) :
  n < 256 ^ N.of_nat k -> (length (le_bytes n) <= k)%nat.
Proof. apply le_bytes_fuel_length. Qed.

(** The digits of a byte sequence's value are the sequence without its
    high zero bytes. *)
Lemma le_bytes_le_value (l : list byte) :
  exists k, l = le_bytes (le_value l) ++ make k.
Proof.
  induction l as [|b l [k IH]].
  - exists O. reflexivity.
  - rewrite le_value_cons, le_bytes_unfold.
    destruct (N.eqb_spec (Byte.to_N b + 256 * le_value l) 0) as [Hz|Hz].
    + assert (Hb : Byte.to_N b = 0) by lia.
      assert (Hl : le_value l = 0) by lia.
      rewrite Hl in IH. cbn [le_bytes le_bytes_fuel app] in IH.
      exists (S k). cbn [app make repeat]. f_equal.
      * apply (f_equal Byte.of_N) in Hb. rewrite Byte.of_to_N in Hb.
        cbn in Hb. congruence.
      * exact IH.
    + exists k. rewrite byte_of_N_cons, div_cons. cbn [app]. now f_equal.
Qed.

Lemma Bytes_of_N (v : N) : Bytes (Z.of_N v) = rev (le_bytes v).
Proof. unfold Bytes. now rewrite Zabs2N.id. Qed.

Lemma SetBytes_rev (l : list byte) : SetBytes (rev l) = Z.of_N (le_value l).
Proof. unfold SetBytes. now rewrite be_value_rev. Qed.

End BigFacts.

(** ** Hashes, their bytes and their integer value *)

Section HashFacts.

Local Open Scope Z_scope.

Lemma Q_lt_2_256 : Constants.Q < 2 ^ 256.
Proof. reflexivity. Qed.

Lemma HashZero_wf : wf_Hash HashZero.
Proof. reflexivity. Qed.

Lemma NewHashFromBigInt_wf (n : Z) : wf_Hash (NewHashFromBigInt n).
Proof. unfold wf_Hash, NewHashFromBigInt. now rewrite copy_length. Qed.

(** The integer value of a hash reads its storage bytes little-endian. *)
Lemma Hash_BigInt_le_value (h : Hash) :
  Hash_BigInt h = Z.of_N (Big.le_value h).
Proof.
  unfold Hash_BigInt. rewrite ReverseByteOrder_rev. apply SetBytes_rev.
Qed.

Lemma Hash_BigInt_range (h : Hash) :
  wf_Hash h -> 0 <= Hash_BigInt h < 2 ^ 256.
Proof.
  intros Hh. rewrite Hash_BigInt_le_value.
  pose proof (le_value_lt h) as Hlt. rewrite Hh in Hlt.
  change (256 ^ N.of_nat 32)%N with (Z.to_N (2 ^ 256)) in Hlt. lia.
Qed.

(** The storage bytes of the hash of a magnitude below 2^256: its
    little-endian digits, then zeros. *)
Lemma NewHashFromBigInt_of_N (v : N) :
  (v < 256 ^ 32)%N ->
  NewHashFromBigInt (Z.of_N v)
  = Big.le_bytes v ++ make (32 - length (Big.le_bytes v)).
Proof.
  intros Hv. unfold NewHashFromBigInt.
  rewrite Bytes_of_N, ReverseByteOrder_rev, rev_involutive.
  apply copy_make_short. now apply (le_bytes_length v 32).
Qed.

Lemma Hash_BigInt_NewHashFromBigInt (n : Z) :
  0 <= n < 2 ^ 256 -> Hash_BigInt (NewHashFromBigInt n) = n.
Proof.
  intros Hn. rewrite <- (Z2N.id n) at 1 by lia.
  rewrite NewHashFromBigInt_of_N.
  - rewrite Hash_BigInt_le_value, le_value_app_zeros, le_bytes_value. lia.
  - change (256 ^ 32)%N with (Z.to_N (2 ^ 256)). lia.
Qed.

Lemma NewHashFromBigInt_Hash_BigInt (h : Hash) :
  wf_Hash h -> NewHashFromBigInt (Hash_BigInt h) = h.
Proof.
  intros Hh. rewrite Hash_BigInt_le_value, NewHashFromBigInt_of_N.
  - destruct (le_bytes_le_value h) as [k Hk].
    assert (Hlen : length h = (length (Big.le_bytes (Big.le_value h)) + k)%nat).
    { rewrite Hk at 1. now rewrite length_app, make_length. }
    rewrite Hh in Hlen.
    replace (32 - length (Big.le_bytes (Big.le_value h)))%nat with k by lia.
    now symmetry.
  - pose proof (le_value_lt h) as Hlt. now rewrite Hh in Hlt.
Qed.

Lemma NewHashFromBytes_32 (b : list byte) :
  length b = 32%nat -> NewHashFromBytes b = ok (rev b).
Proof.
  intros Hb. unfold NewHashFromBytes, ElemBytesLen.
  rewrite Hb. cbn [Nat.eqb negb].
  rewrite copy_same_length, ReverseByteOrder_rev; [reflexivity|].
  now rewrite ReverseByteOrder_length, make_length.
Qed.

Lemma NewHashFromBytes_not_32 (b : list byte) :
  length b <> 32%nat -> NewHashFromBytes b = fail (ErrExpected32 (length b)).
Proof.
  intros Hb. unfold NewHashFromBytes, ElemBytesLen.
  apply Nat.eqb_neq in Hb. now rewrite Hb.
Qed.

Lemma Hash_Bytes_rev (h : Hash) : wf_Hash h -> Hash_Bytes h = rev h.
Proof.
  intros Hh. unfold Hash_Bytes.
  rewrite copy_same_length, ReverseByteOrder_rev; [reflexivity|].
  now rewrite make_length.
Qed.

End HashFacts.

(** ** The properties of the codec *)

Local Open Scope Z_scope.

(** C1: for every integer [n] with [0 <= n < Q], building a hash from [n]
    with [NewHashFromBigInt] and reading it back with [BigInt] gives [n]
    again. *)
Theorem BigInt_NewHashFromBigInt_roundtrip (n : Z) :
  0 <= n < Constants.Q ->
  Hash_BigInt (NewHashFromBigInt n) = n.
Proof.
  intros [Hlo Hhi]. apply Hash_BigInt_NewHashFromBigInt.
  pose proof Q_lt_2_256. lia.
Qed.

Lemma BigInt_NewHashFromBigInt_roundtrip_witness :
  0 <= Constants.Q - 1 < Constants.Q
  /\ Hash_BigInt (NewHashFromBigInt (Constants.Q - 1)) = Constants.Q - 1.
Proof.
  assert (H : 0 <= Constants.Q - 1 < Constants.Q) by (unfold Constants.Q; lia).
  split; [exact H|].
  exact (BigInt_NewHashFromBigInt_roundtrip (Constants.Q - 1) H).
Defined.

(** C2: for every 32-byte buffer [b], [NewHashFromBytes] succeeds and
    [Bytes] of the hash it builds is [b] again; for every hash [h],
    [NewHashFromBytes] of [Bytes h] succeeds and gives [h] back. *)
Theorem Bytes_NewHashFromBytes_roundtrip (b : list byte) (h : Hash) :
  length b = 32%nat -> wf_Hash h ->
  (exists h', NewHashFromBytes b = ok h' /\ Hash_Bytes h' = b)
  /\ NewHashFromBytes (Hash_Bytes h) = ok h.
Proof.
  intros Hb Hh. split.
  - exists (rev b). split; [now apply NewHashFromBytes_32|].
    rewrite Hash_Bytes_rev by (unfold wf_Hash; now rewrite length_rev).
    apply rev_involutive.
  - rewrite Hash_Bytes_rev by exact Hh.
    rewrite NewHashFromBytes_32 by (now rewrite length_rev).
    now rewrite rev_involutive.
Qed.

Lemma Bytes_NewHashFromBytes_roundtrip_witness :
  let b := map Big.byte_of_N (map N.of_nat (seq 1 32)) in
  let h := NewHashFromBigInt 1234567 in
  (exists h', NewHashFromBytes b = ok h' /\ Hash_Bytes h' = b)
  /\ NewHashFromBytes (Hash_Bytes h) = ok h.
Proof.
  exact (Bytes_NewHashFromBytes_roundtrip
           (map Big.byte_of_N (map N.of_nat (seq 1 32)))
           (NewHashFromBigInt 1234567) eq_refl eq_refl).
Defined.

(** C3: [NewBigIntFromHashBytes] fails on every input that is not 32 bytes
    long; on 32 bytes it fails with the not-in-field error exactly when the
    big-endian value is [Q] or more, and returns the value when it is below
    [Q]. *)
Theorem NewBigIntFromHashBytes_spec (b : list byte) :
  (length b <> 32%nat ->
   NewBigIntFromHashBytes b = fail (ErrExpected32 (length b)))
  /\ (length b = 32%nat ->
      (Constants.Q <= Big.SetBytes b ->
       NewBigIntFromHashBytes b = fail ErrNotInField)
      /\ (Big.SetBytes b < Constants.Q ->
          NewBigIntFromHashBytes b = ok (Big.SetBytes b))
      /\ (NewBigIntFromHashBytes b = fail ErrNotInField ->
          Constants.Q <= Big.SetBytes b)).
Proof.
  unfold NewBigIntFromHashBytes, ElemBytesLen, Utils.CheckBigIntInField.
  split.
  - intros Hb. apply Nat.eqb_neq in Hb. now rewrite Hb.
  - intros Hb. rewrite Hb. cbn [Nat.eqb negb].
    rewrite <- Hb, firstn_all.
    destruct (Z.ltb_spec (Big.SetBytes b) Constants.Q) as [Hlt|Hge];
      cbn [negb]; repeat split; intros H; try reflexivity; try lia.
    discriminate H.
Qed.

Lemma NewBigIntFromHashBytes_spec_witness :
  NewBigIntFromHashBytes [x01] = fail (ErrExpected32 1)
  /\ NewBigIntFromHashBytes (Big.Bytes Constants.Q) = fail ErrNotInField
  /\ NewBigIntFromHashBytes (Big.Bytes (Constants.Q - 1))
     = ok (Constants.Q - 1).
Proof.
  split; [|split].
  - apply (proj1 (NewBigIntFromHashBytes_spec [x01])). discriminate.
  - apply (proj1 (proj2 (NewBigIntFromHashBytes_spec (Big.Bytes Constants.Q))
                    eq_refl)).
    vm_compute. discriminate.
  - apply (proj1 (proj2 (proj2 (NewBigIntFromHashBytes_spec
                                  (Big.Bytes (Constants.Q - 1))) eq_refl))).
    vm_compute. reflexivity.
Defined.

(** C9, as stated, fails: the storage bytes [NewHashFromBytes] builds from
    the buffer 01 00 ... 00 are not that buffer. *)
Lemma NewHashFromBytes_keeps_order_counterexample :
  length (x01 :: repeat x00 31) = 32%nat
  /\ NewHashFromBytes (x01 :: repeat x00 31) <> ok (x01 :: repeat x00 31).
Proof. split; [reflexivity|]. vm_compute. discriminate. Qed.

(** C9, amended: for every 32-byte buffer [b], [NewHashFromBytes] succeeds
    whatever integer [b] holds (no test of field membership), and the storage
    bytes of the hash are the bytes of [b] in reversed order, so that the
    integer value of the hash is [b] read big-endian. *)
Theorem NewHashFromBytes_swaps_endianness (b : list byte) :
  length b = 32%nat ->
  NewHashFromBytes b = ok (rev b)
  /\ Hash_BigInt (rev b) = Big.SetBytes b.
Proof.
  intros Hb. split; [now apply NewHashFromBytes_32|].
  unfold Hash_BigInt. now rewrite ReverseByteOrder_rev, rev_involutive.
Qed.

Lemma NewHashFromBytes_swaps_endianness_witness :
  length (Big.Bytes Constants.Q) = 32%nat
  /\ NewHashFromBytes (Big.Bytes Constants.Q) = ok (rev (Big.Bytes Constants.Q))
  /\ Hash_BigInt (rev (Big.Bytes Constants.Q))
     = Big.SetBytes (Big.Bytes Constants.Q).
Proof.
  split; [reflexivity|].
  exact (NewHashFromBytes_swaps_endianness (Big.Bytes Constants.Q) eq_refl).
Defined.

(** C8, as stated, fails at eight digits: the decimal text of 12345678 is
    8 characters long and [String] does not return it unchanged. *)
Lemma Hash_String_eight_digits_counterexample :
  wf_Hash (NewHashFromBigInt 12345678)
  /\ (String.length (Big.String_ (Hash_BigInt (NewHashFromBigInt 12345678)))
      <= 8)%nat
  /\ Hash_String (NewHashFromBigInt 12345678)
     <> Big.String_ (Hash_BigInt (NewHashFromBigInt 12345678)).
Proof.
  split; [reflexivity|]. split; [vm_compute; lia|].
  vm_compute. discriminate.
Qed.

(** C8, amended: [String] returns the decimal text of the integer value
    unchanged when that text is shorter than 8 characters, and its first 8
    characters followed by "..." when it has 8 characters or more. *)
Theorem Hash_String_spec (h : Hash) :
  (String.length (Big.String_ (Hash_BigInt h)) < 8 ->
   Hash_String h = Big.String_ (Hash_BigInt h))%nat
  /\ (8 <= String.length (Big.String_ (Hash_BigInt h)) ->
      Hash_String h
      = (substring 0 8 (Big.String_ (Hash_BigInt h)) ++ "...")%string)%nat.
Proof.
  unfold Hash_String, numCharPrint.
  destruct (Nat.ltb_spec (String.length (Big.String_ (Hash_BigInt h))) 8);
    split; intros H'; try reflexivity; lia.
Qed.

Lemma Hash_String_spec_witness :
  Hash_String (NewHashFromBigInt 1234567) = "1234567"%string
  /\ Hash_String (NewHashFromBigInt 12345678) = "12345678..."%string.
Proof.
  split.
  - apply (proj1 (Hash_String_spec (NewHashFromBigInt 1234567))).
    vm_compute. lia.
  - apply (proj2 (Hash_String_spec (NewHashFromBigInt 12345678))).
    vm_compute. lia.
Defined.

(** What [UnmarshalText] does on every input: on a base-10 literal it
    stores the hash of the integer and returns a nil error; on any other
    text [NewHashFromString] hands back a nil hash, and slicing it
    panics. *)
Lemma Hash_UnmarshalText_cases (h : Hash) (b : list byte) :
  wf_Hash h ->
  Hash_UnmarshalText h b
  = match Big.SetString10 (string_of_list_byte b) with
    | Some n => Returns (NewHashFromBigInt n, None)
    | None => Panics NilPointerDereference
    end.
Proof.
  intros Hh. unfold Hash_UnmarshalText, NewHashFromString.
  destruct (Big.SetString10 (string_of_list_byte b)) as [n|];
    cbv beta iota delta [ok fail].
  - rewrite copy_same_length; [reflexivity|].
    rewrite Hh. apply NewHashFromBigInt_wf.
  - reflexivity.
Qed.

(** C5 does not hold of the code: on the text "abc", which is no decimal
    integer, [UnmarshalText] returns no error value, the runtime panics on
    the nil hash. *)
Theorem Hash_UnmarshalText_panics_on_abc :
  Big.SetString10 "abc" = None
  /\ Hash_UnmarshalText HashZero (list_byte_of_string "abc")
     = Panics NilPointerDereference.
Proof. split; vm_compute; reflexivity. Qed.

(** ** Decimal texts *)

Section DecimalFacts.

Import Big.

Ltac each_char c :=
  destruct c as [[|] [|] [|] [|] [|] [|] [|] [|]].

Lemma uint_of_char_digit (c : ascii) (d : Decimal.uint) :
  is_digit c = true -> exists d', uint_of_char c (Some d) = Some d'.
Proof.
  each_char c; intros H; try discriminate H; eexists; reflexivity.
Qed.

Lemma uint_of_char_is_digit (c : ascii) (o : option Decimal.uint)
      (d' : Decimal.uint) :
  uint_of_char c o = Some d' -> is_digit c = true.
Proof.
  destruct o as [d|]; [|discriminate].
  each_char c; intros H; try discriminate H; reflexivity.
Qed.

(** [scan_digits] accepts the non-empty texts made of decimal digits, and
    no other. *)
Lemma scan_digits_accepts (s : string) :
  (exists n, scan_digits s = Some n)
  <-> s <> EmptyString /\ all_digits s = true.
Proof.
  unfold scan_digits. split.
  - intros [n Hn]. destruct s as [|c s]; [discriminate|].
    split; [discriminate|].
    cbn [NilZero.uint_of_string] in Hn.
    destruct (NilEmpty.uint_of_string (String c s)) as [d|] eqn:E;
      [clear Hn|discriminate].
    revert d E. generalize (String c s). clear c s.
    induction s as [|c s IH]; intros d E; [reflexivity|].
    cbn [NilEmpty.uint_of_string] in E. cbn [all_digits].
    rewrite (uint_of_char_is_digit _ _ _ E).
    destruct (NilEmpty.uint_of_string s) as [d0|]; [|discriminate E].
    now rewrite (IH d0).
  - intros [Hne Hall]. destruct s as [|c s]; [congruence|].
    cbn [NilZero.uint_of_string].
    assert (H : exists d, NilEmpty.uint_of_string (String c s) = Some d).
    { clear Hne. revert Hall. generalize (String c s). clear c s.
      induction s as [|c s IH]; intros Hall; [now exists Decimal.Nil|].
      cbn [all_digits] in Hall. apply andb_prop in Hall as [Hc Hs].
      destruct (IH Hs) as [d Hd]. cbn [NilEmpty.uint_of_string].
      rewrite Hd. now apply uint_of_char_digit. }
    destruct H as [d ->]. now eexists.
Qed.

(** A text that starts with a digit carries no sign. *)
Lemma SetString10_unsigned (c : ascii) (s : string) :
  is_digit c = true ->
  SetString10 (String c s) = option_map Z.of_N (scan_digits (String c s)).
Proof. each_char c; intros H; try discriminate H; reflexivity. Qed.

Lemma SetString10_minus (s : string) :
  SetString10 (String "-" s)
  = option_map (fun n => Z.opp (Z.of_N n)) (scan_digits s).
Proof. reflexivity. Qed.

Lemma string_of_uint_head (d : Decimal.uint) :
  exists c s, NilZero.string_of_uint d = String c s /\ is_digit c = true.
Proof. destruct d; do 2 eexists; split; reflexivity. Qed.

Lemma scan_digits_string_of_uint (d : Decimal.uint) :
  d <> Decimal.Nil ->
  scan_digits (NilZero.string_of_uint d) = Some (N.of_uint d).
Proof. intros Hd. unfold scan_digits. now rewrite NilZero.usu. Qed.

(** Parsing the decimal text of an integer gives the integer. *)
Lemma SetString10_String (z : Z) : SetString10 (String_ z) = Some z.
Proof.
  unfold String_. destruct z as [|p|p]; [reflexivity| |];
    cbn [Z.to_int NilZero.string_of_int].
  - destruct (string_of_uint_head (Pos.to_uint p)) as (c & s & E & Hc).
    rewrite E, SetString10_unsigned, <- E by exact Hc.
    rewrite scan_digits_string_of_uint by apply Unsigned.to_uint_nonnil.
    unfold N.of_uint. now rewrite DecimalPos.Unsigned.of_to.
  - rewrite SetString10_minus.
    rewrite scan_digits_string_of_uint by apply Unsigned.to_uint_nonnil.
    unfold N.of_uint. now rewrite DecimalPos.Unsigned.of_to.
Qed.

(** Only the magnitude of the integer reaches the hash. *)
Lemma NewHashFromBigInt_opp (n : Z) :
  NewHashFromBigInt (- n) = NewHashFromBigInt n.
Proof. unfold NewHashFromBigInt, Bytes. now rewrite Zabs2N.inj_opp. Qed.

End DecimalFacts.

(** C7: for every hash [h], [MarshalText] gives the whole decimal text of
    the integer value of [h], with no error, and [NewHashFromString] of
    that text succeeds and gives [h] back. *)
Theorem MarshalText_NewHashFromString_roundtrip (h : Hash) :
  wf_Hash h ->
  Hash_MarshalText h
  = (list_byte_of_string (Big.String_ (Hash_BigInt h)), None)
  /\ string_of_list_byte (fst (Hash_MarshalText h))
     = Big.String_ (Hash_BigInt h)
  /\ NewHashFromString (Big.String_ (Hash_BigInt h)) = ok h.
Proof.
  intros Hh. split; [reflexivity|]. split.
  - apply string_of_list_byte_of_string.
  - unfold NewHashFromString.
    now rewrite SetString10_String, NewHashFromBigInt_Hash_BigInt.
Qed.

Lemma MarshalText_NewHashFromString_roundtrip_witness :
  let h := NewHashFromBigInt (Constants.Q - 1) in
  Hash_MarshalText h
  = (list_byte_of_string (Big.String_ (Hash_BigInt h)), None)
  /\ string_of_list_byte (fst (Hash_MarshalText h))
     = Big.String_ (Hash_BigInt h)
  /\ NewHashFromString (Big.String_ (Hash_BigInt h)) = ok h.
Proof.
  exact (MarshalText_NewHashFromString_roundtrip
           (NewHashFromBigInt (Constants.Q - 1)) eq_refl).
Defined.

(** C10: for every non-empty text [d] of decimal digits, [NewHashFromString]
    succeeds on "-" followed by [d], with the hash it returns for [d]. *)
Theorem NewHashFromString_negative_literal (d : string) :
  d <> EmptyString -> Big.all_digits d = true ->
  exists h, NewHashFromString (String "-" d) = ok h
            /\ NewHashFromString d = ok h.
Proof.
  intros Hne Hall.
  destruct (proj2 (scan_digits_accepts d) (conj Hne Hall)) as [n Hn].
  exists (NewHashFromBigInt (Z.of_N n)). unfold NewHashFromString.
  rewrite SetString10_minus, Hn. cbn [option_map].
  rewrite NewHashFromBigInt_opp. split; [reflexivity|].
  destruct d as [|c d]; [congruence|].
  cbn [Big.all_digits] in Hall. apply andb_prop in Hall as [Hc _].
  now rewrite SetString10_unsigned, Hn.
Qed.

Lemma NewHashFromString_negative_literal_witness :
  exists h, NewHashFromString "-1234567" = ok h
            /\ NewHashFromString "1234567" = ok h.
Proof.
  apply (NewHashFromString_negative_literal "1234567").
  - discriminate.
  - reflexivity.
Defined.

(** ** Hexadecimal texts *)

Section HexFacts.

Import Hex Common.
Local Open Scope nat_scope.

Ltac each_char c :=
  destruct c as [[|] [|] [|] [|] [|] [|] [|] [|]].

(** Induction on a text two characters at a time. *)
Lemma string_pair_ind (P : string -> Prop) :
  P EmptyString ->
  (forall a, P (String a EmptyString)) ->
  (forall a b rest, P rest -> P (String a (String b rest))) ->
  forall s, P s.
Proof.
  intros H0 H1 H2 s.
  enough (H : P s /\ forall a, P (String a s)) by apply H.
  induction s as [|b s [IH IH']]; split; auto.
Qed.

Lemma decode_encode_byte (v : byte) :
  fromHexChar (hexdigit (N.shiftr (Byte.to_N v) 4))
  = Some (N.shiftr (Byte.to_N v) 4)
  /\ fromHexChar (hexdigit (N.land (Byte.to_N v) 15))
     = Some (N.land (Byte.to_N v) 15)
  /\ Big.byte_of_N
       (N.shiftr (Byte.to_N v) 4 * 16 + N.land (Byte.to_N v) 15)%N
     = v.
Proof. destruct v; repeat split; reflexivity. Qed.

(** Decoding an encoding gives the bytes back, with no error. *)
Lemma DecodeString_EncodeToString (src : list byte) :
  DecodeString (EncodeToString src) = (src, None).
Proof.
  induction src as [|v src IH]; [reflexivity|].
  cbn [EncodeToString DecodeString].
  destruct (decode_encode_byte v) as (-> & -> & ->). now rewrite IH.
Qed.

(** The second character of an encoding is a digit of [hextable]: no
    encoding starts with the prefix. *)
Lemma payload_EncodeToString (src : list byte) :
  Common.payload (EncodeToString src) = EncodeToString src.
Proof.
  destruct src as [|v src]; [reflexivity|].
  cbn [EncodeToString]. destruct v; reflexivity.
Qed.

Lemma odd_double (n : nat) : Nat.odd (2 * n) = false.
Proof.
  rewrite <- Nat.negb_even, Nat.even_mul. reflexivity.
Qed.

Lemma FromHex_EncodeToString (src : list byte) :
  Common.FromHex (EncodeToString src) = src.
Proof.
  unfold Common.FromHex, Common.padded, Common.Hex2Bytes.
  rewrite payload_EncodeToString.
  assert (H : String.length (EncodeToString src) = 2 * length src).
  { induction src as [|v src IH]; [reflexivity|].
    cbn [EncodeToString String.length length]. rewrite IH. lia. }
  rewrite H, odd_double.
  now rewrite DecodeString_EncodeToString.
Qed.

Lemma EncodeToString_length (src : list byte) :
  String.length (EncodeToString src) = 2 * length src.
Proof.
  induction src as [|v src IH]; [reflexivity|].
  cbn [EncodeToString String.length length]. rewrite IH. lia.
Qed.

Lemma hexdigit_nibbles (v : byte) :
  hexdigit (N.shiftr (Byte.to_N v) 4) = hexdigit (Byte.to_N v / 16)%N
  /\ hexdigit (N.land (Byte.to_N v) 15) = hexdigit (Byte.to_N v mod 16)%N
  /\ is_lower_hex_char (hexdigit (Byte.to_N v / 16)%N) = true
  /\ is_lower_hex_char (hexdigit (Byte.to_N v mod 16)%N) = true.
Proof. destruct v; repeat split; reflexivity. Qed.

(** Byte [i] of the source gives characters [2i] and [2i+1] of the
    encoding: its high and its low nibble. *)
Lemma EncodeToString_get (src : list byte) (i : nat) (v : byte) :
  nth_error src i = Some v ->
  String.get (2 * i) (EncodeToString src)
  = Some (hexdigit (Byte.to_N v / 16)%N)
  /\ String.get (2 * i + 1) (EncodeToString src)
     = Some (hexdigit (Byte.to_N v mod 16)%N).
Proof.
  revert i. induction src as [|w src IH]; intros i Hi.
  - destruct i; discriminate Hi.
  - destruct i as [|i].
    + injection Hi as ->. cbn [EncodeToString Nat.mul Nat.add String.get].
      destruct (hexdigit_nibbles v) as (-> & -> & _). now split.
    + cbn [nth_error] in Hi. apply IH in Hi.
      replace (2 * S i) with (S (S (2 * i))) by lia.
      replace (S (S (2 * i)) + 1) with (S (S (2 * i + 1))) by lia.
      cbn [EncodeToString String.get]. exact Hi.
Qed.

Lemma EncodeToString_lower (src : list byte) :
  all_lower_hex (EncodeToString src) = true.
Proof.
  induction src as [|v src IH]; [reflexivity|].
  cbn [EncodeToString all_lower_hex].
  destruct (hexdigit_nibbles v) as (-> & -> & -> & ->). exact IH.
Qed.

Lemma half_SS (k : nat) : S (S k) / 2 = S (k / 2).
Proof. change (S (S k)) with (2 + k). apply (Nat.div_add_l 1 2 k). lia. Qed.

(** The decoder returns one byte for every two digits the text starts
    with, whatever comes after them. *)
Lemma DecodeString_length (s : string) :
  length (fst (DecodeString s)) = hex_run s / 2.
Proof.
  induction s as [| p | p q rest IH] using string_pair_ind.
  - reflexivity.
  - cbn [DecodeString fst length hex_run]. now destruct (is_hex_char p).
  - cbn [DecodeString hex_run]. unfold is_hex_char.
    destruct (fromHexChar p) as [a|]; [|reflexivity].
    destruct (fromHexChar q) as [b|]; [|reflexivity].
    rewrite half_SS, <- IH.
    now destruct (DecodeString rest).
Qed.

Lemma Hex2Bytes_length (s : string) :
  length (Common.Hex2Bytes s) = hex_run s / 2.
Proof.
  rewrite <- DecodeString_length. unfold Common.Hex2Bytes.
  now destruct (DecodeString s).
Qed.

Lemma FromHex_length (s : string) :
  length (Common.FromHex s)
  = hex_run (Common.padded (Common.payload s)) / 2.
Proof. apply Hex2Bytes_length. Qed.

Lemma hex_run_all_hex (s : string) :
  all_hex s = true -> hex_run s = String.length s.
Proof.
  induction s as [|c s IH]; [reflexivity|].
  cbn [all_hex hex_run String.length]. intros H.
  apply andb_prop in H as [-> H]. now rewrite IH.
Qed.

(** The digits a text starts with end before any character that is no
    digit. *)
Lemma hex_run_le_non_hex (s : string) (i : nat) (c : ascii) :
  String.get i s = Some c -> is_hex_char c = false -> hex_run s <= i.
Proof.
  revert i. induction s as [|d s IH]; intros i Hi Hc; [cbn; lia|].
  cbn [hex_run]. destruct i as [|i].
  - cbn in Hi. injection Hi as ->. rewrite Hc. lia.
  - cbn [String.get] in Hi. destruct (is_hex_char d); [|lia].
    apply le_n_S. now apply (IH i).
Qed.

(** A text of hexadecimal digits has no prefix to drop. *)
Lemma payload_all_hex (s : string) :
  all_hex s = true -> Common.payload s = s.
Proof.
  unfold Common.payload.
  destruct s as [|a [|b rest]]; try reflexivity.
  cbn [all_hex Common.has0xPrefix]. intros H.
  apply andb_prop in H as [_ H]. apply andb_prop in H as [Hb _].
  replace ((b =? "x")%char || (b =? "X")%char) with false.
  - now rewrite andb_false_r.
  - each_char b; try reflexivity; discriminate Hb.
Qed.

Lemma NewHashFromHex_length (s : string) :
  length (Common.FromHex s) <> 32 ->
  NewHashFromHex s = fail (ErrExpected32 (length (Common.FromHex s))).
Proof.
  intros H. unfold NewHashFromHex.
  rewrite NewHashFromBytes_not_32; now rewrite ReverseByteOrder_length.
Qed.

End HexFacts.

Local Open Scope nat_scope.

(** C6: for every hash [h], [Hex] is the lower-case hexadecimal text of the
    storage bytes, in storage order, two characters a byte, and
    [NewHashFromHex] of that text succeeds and gives [h] back. *)
Theorem Hex_NewHashFromHex_roundtrip (h : Hash) :
  wf_Hash h ->
  String.length (Hash_Hex h) = 64
  /\ Hex.all_lower_hex (Hash_Hex h) = true
  /\ (forall (i : nat) (v : byte),
        nth_error h i = Some v ->
        String.get (2 * i) (Hash_Hex h)
        = Some (Hex.hexdigit (Byte.to_N v / 16)%N)
        /\ String.get (2 * i + 1) (Hash_Hex h)
           = Some (Hex.hexdigit (Byte.to_N v mod 16)%N))
  /\ NewHashFromHex (Hash_Hex h) = ok h.
Proof.
  intros Hh. unfold Hash_Hex. repeat split.
  - rewrite EncodeToString_length, Hh. reflexivity.
  - apply EncodeToString_lower.
  - now apply EncodeToString_get.
  - now apply EncodeToString_get.
  - unfold NewHashFromHex.
    rewrite FromHex_EncodeToString, ReverseByteOrder_rev.
    rewrite NewHashFromBytes_32 by (now rewrite length_rev).
    now rewrite rev_involutive.
Qed.

Lemma Hex_NewHashFromHex_roundtrip_witness :
  let h := NewHashFromBigInt 12345678 in
  String.length (Hash_Hex h) = 64
  /\ Hex.all_lower_hex (Hash_Hex h) = true
  /\ (forall (i : nat) (v : byte),
        nth_error h i = Some v ->
        String.get (2 * i) (Hash_Hex h)
        = Some (Hex.hexdigit (Byte.to_N v / 16)%N)
        /\ String.get (2 * i + 1) (Hash_Hex h)
           = Some (Hex.hexdigit (Byte.to_N v mod 16)%N))
  /\ NewHashFromHex (Hash_Hex h) = ok h.
Proof.
  exact (Hex_NewHashFromHex_roundtrip (NewHashFromBigInt 12345678) eq_refl).
Defined.

(** C4, as stated, fails twice. The 63 zeros are an odd-length text of
    hexadecimal digits, and the 64 zeros followed by "zz" have characters
    that are no hexadecimal digits: [NewHashFromHex] fails on neither, it
    returns the zero hash for both. *)
Lemma NewHashFromHex_lenient_counterexample :
  (Hex.all_hex
     "000000000000000000000000000000000000000000000000000000000000000"
   = true
   /\ Nat.odd (String.length
        "000000000000000000000000000000000000000000000000000000000000000")
      = true
   /\ NewHashFromHex
        "000000000000000000000000000000000000000000000000000000000000000"
      = ok HashZero)
  /\ (Hex.contains_non_hex
        "0000000000000000000000000000000000000000000000000000000000000000zz"
      = true
      /\ NewHashFromHex
           "0000000000000000000000000000000000000000000000000000000000000000zz"
         = ok HashZero).
Proof. repeat split; vm_compute; reflexivity. Qed.

(** C4, amended: [NewHashFromHex s] fails whenever [s] does not decode to
    exactly 32 bytes, where decoding drops a leading "0x" or "0X", puts a
    "0" in front of an odd number of characters, and gives a byte for every
    two hexadecimal digits the text then starts with, up to the first
    character that is no digit. So it fails on every odd-length text of
    hexadecimal digits but those of 63 digits, and on every text that has a
    character that is no hexadecimal digit among the first 64 characters of
    the payload so padded. *)
Theorem NewHashFromHex_rejects (s : string) :
  (length (Common.FromHex s) <> 32 ->
   NewHashFromHex s = fail (ErrExpected32 (length (Common.FromHex s))))
  /\ length (Common.FromHex s)
     = Hex.hex_run (Common.padded (Common.payload s)) / 2
  /\ (Hex.all_hex s = true -> Nat.odd (String.length s) = true ->
      String.length s <> 63 ->
      NewHashFromHex s = fail (ErrExpected32 ((String.length s + 1) / 2)))
  /\ (forall (i : nat) (c : ascii),
        i < 64 ->
        String.get i (Common.padded (Common.payload s)) = Some c ->
        Hex.is_hex_char c = false ->
        NewHashFromHex s
        = fail (ErrExpected32
                  (Hex.hex_run (Common.padded (Common.payload s)) / 2))).
Proof.
  split; [apply NewHashFromHex_length|].
  split; [apply FromHex_length|]. split.
  - intros Hall Hodd H63.
    assert (Hlen : length (Common.FromHex s) = (String.length s + 1) / 2).
    { rewrite FromHex_length, payload_all_hex by exact Hall.
      unfold Common.padded. rewrite Hodd.
      change (Hex.hex_run (String "0" s)) with (S (Hex.hex_run s)).
      rewrite hex_run_all_hex by exact Hall. now rewrite Nat.add_1_r. }
    rewrite <- Hlen. apply NewHashFromHex_length. rewrite Hlen.
    apply Nat.odd_spec in Hodd. destruct Hodd as [k Hk].
    rewrite Hk.
    replace (2 * k + 1 + 1) with ((k + 1) * 2) by lia.
    rewrite Nat.div_mul by lia. lia.
  - intros i c Hi Hget Hc.
    rewrite <- FromHex_length. apply NewHashFromHex_length.
    rewrite FromHex_length.
    pose proof (hex_run_le_non_hex _ _ _ Hget Hc) as Hrun.
    intros E.
    assert (Hhalf : Hex.hex_run (Common.padded (Common.payload s)) / 2
                    <= i / 2) by (apply Nat.Div0.div_le_mono; exact Hrun).
    assert (Hi2 : i / 2 < 32)
      by (apply Nat.Div0.div_lt_upper_bound; lia).
    lia.
Qed.

Lemma NewHashFromHex_rejects_witness :
  NewHashFromHex "0x12" = fail (ErrExpected32 1)
  /\ length (Common.FromHex "0X0102zz") = 2
  /\ NewHashFromHex "123" = fail (ErrExpected32 2)
  /\ NewHashFromHex "0x12g4" = fail (ErrExpected32 1).
Proof.
  split; [|split; [|split]].
  - apply (proj1 (NewHashFromHex_rejects "0x12")).
    vm_compute. discriminate.
  - exact (proj1 (proj2 (NewHashFromHex_rejects "0X0102zz"))).
  - apply (proj1 (proj2 (proj2 (NewHashFromHex_rejects "123"))));
      [reflexivity|reflexivity|vm_compute; discriminate].
  - apply (proj2 (proj2 (proj2 (NewHashFromHex_rejects "0x12g4")))
             2 "g"%char); [vm_compute; lia|reflexivity|reflexivity].
Defined.

(** ** Further properties of hash.go *)

Section MoreSliceFacts.

Lemma skipn_make (k n : nat) : skipn k (make n) = make (n - k).
Proof.
  unfold make. revert n. induction k as [|k IH]; intros n; cbn [skipn].
  - now rewrite Nat.sub_0_r.
  - destruct n; [reflexivity|]. cbn [repeat Nat.sub]. apply IH.
Qed.

(** Copying into zeros keeps what fits of the source and pads the rest. *)
Lemma copy_make (n : nat) (src : list byte) :
  copy (make n) src = firstn n src ++ make (n - length src).
Proof. unfold copy. now rewrite make_length, skipn_make. Qed.

Lemma rev_make (n : nat) : rev (make n) = make n.
Proof. apply rev_repeat. Qed.

End MoreSliceFacts.

(** X1: [ReverseByteOrder] returns a slice as long as its argument whose
    byte [i] is byte [len - 1 - i] of the argument, and reversing twice
    gives the argument back. *)
Theorem ReverseByteOrder_index (b : list byte) :
  length (ReverseByteOrder b) = length b
  /\ (forall i : nat,
        i < length b ->
        nth_error (ReverseByteOrder b) i = nth_error b (length b - 1 - i))
  /\ ReverseByteOrder (ReverseByteOrder b) = b.
Proof.
  split; [apply ReverseByteOrder_length|].
  split; [|apply ReverseByteOrder_involutive].
  intros i Hi. rewrite ReverseByteOrder_rev, nth_error_rev.
  apply Nat.ltb_lt in Hi. rewrite Hi. f_equal. lia.
Qed.

Lemma ReverseByteOrder_index_witness :
  nth_error (ReverseByteOrder [x01; x02; x03]) 0 = Some x03.
Proof.
  apply (proj1 (proj2 (ReverseByteOrder_index [x01; x02; x03])) 0).
  cbn. lia.
Defined.

Section TruncationFacts.

Import Big.
Local Open Scope N_scope.

(** The first [k] digits of [v] are the digits of [v] modulo 256^k. *)
Lemma le_value_firstn (k : nat) (v : N) :
  le_value (firstn k (le_bytes v)) = v mod 256 ^ N.of_nat k.
Proof.
  revert v. induction k as [|k IH]; intros v.
  - cbn [firstn]. now rewrite N.mod_1_r.
  - rewrite le_bytes_unfold. destruct (N.eqb_spec v 0) as [->|Hv].
    + cbn [firstn]. now rewrite N.Div0.mod_0_l.
    + cbn [firstn]. rewrite le_value_cons, byte_of_N_to_N, IH.
      rewrite Nat2N.inj_succ, N.pow_succ_r'.
      now rewrite N.Div0.mod_mul_r.
Qed.

End TruncationFacts.

Local Open Scope Z_scope.

(** Whatever the integer, its hash holds its magnitude modulo 2^256. *)
Lemma Hash_BigInt_of_any (n : Z) :
  Hash_BigInt (NewHashFromBigInt n) = Z.abs n mod 2 ^ 256.
Proof.
  rewrite Hash_BigInt_le_value. unfold NewHashFromBigInt, Big.Bytes.
  rewrite ReverseByteOrder_rev, rev_involutive, copy_make.
  rewrite le_value_app_zeros, le_value_firstn.
  rewrite N2Z.inj_mod, N2Z.inj_abs_N. reflexivity.
Qed.

(** X2: for every integer [n], of any sign and size, the integer value of
    [NewHashFromBigInt n] is the magnitude of [n] modulo 2^256: the sign is
    dropped and the bytes beyond the 32nd are cut off, without an error; so
    an integer of 2^256 or more does not come back from its hash. *)
Theorem Hash_BigInt_NewHashFromBigInt_mod (n : Z) :
  Hash_BigInt (NewHashFromBigInt n) = Z.abs n mod 2 ^ 256
  /\ (2 ^ 256 <= n -> Hash_BigInt (NewHashFromBigInt n) <> n).
Proof.
  split; [apply Hash_BigInt_of_any|].
  intros Hn. rewrite Hash_BigInt_of_any.
  pose proof (Z.mod_pos_bound (Z.abs n) (2 ^ 256) eq_refl). lia.
Qed.

Lemma Hash_BigInt_NewHashFromBigInt_mod_witness :
  Hash_BigInt (NewHashFromBigInt (2 ^ 256 + 5)) <> 2 ^ 256 + 5.
Proof.
  apply (proj2 (Hash_BigInt_NewHashFromBigInt_mod (2 ^ 256 + 5))).
  vm_compute. discriminate.
Defined.

(** X3: two integers get the same hash from [NewHashFromBigInt] exactly
    when their magnitudes agree modulo 2^256. *)
Theorem NewHashFromBigInt_eq_iff (n m : Z) :
  NewHashFromBigInt n = NewHashFromBigInt m
  <-> Z.abs n mod 2 ^ 256 = Z.abs m mod 2 ^ 256.
Proof.
  rewrite <- !Hash_BigInt_of_any. split.
  - now intros ->.
  - intros H.
    rewrite <- (NewHashFromBigInt_Hash_BigInt (NewHashFromBigInt n))
      by apply NewHashFromBigInt_wf.
    rewrite <- (NewHashFromBigInt_Hash_BigInt (NewHashFromBigInt m))
      by apply NewHashFromBigInt_wf.
    now rewrite H.
Qed.

Lemma NewHashFromBigInt_eq_iff_witness :
  NewHashFromBigInt (2 ^ 256 + 7) = NewHashFromBigInt (-7).
Proof.
  apply (proj2 (NewHashFromBigInt_eq_iff (2 ^ 256 + 7) (-7))).
  reflexivity.
Defined.

Section ShapeFacts.

Lemma NewHashFromBytes_shape (b : list byte) :
  (exists h, NewHashFromBytes b = ok h /\ wf_Hash h)
  \/ NewHashFromBytes b = fail (ErrExpected32 (length b)).
Proof.
  destruct (Nat.eq_dec (length b) 32) as [Hb|Hb].
  - left. exists (rev b). split; [now apply NewHashFromBytes_32|].
    unfold wf_Hash. now rewrite length_rev.
  - right. now apply NewHashFromBytes_not_32.
Qed.

End ShapeFacts.

(** X4: every constructor returns either a hash of 32 bytes with a nil
    error, or a nil hash with its error, never both and never neither:
    [NewHashFromBigInt] always a hash, [NewHashFromBytes] and
    [NewHashFromHex] a hash or the length error, [NewHashFromString] a hash
    or the parse error. *)
Theorem constructors_hash_or_error (b : list byte) (s : string) (n : Z) :
  wf_Hash (NewHashFromBigInt n)
  /\ ((exists h, NewHashFromBytes b = ok h /\ wf_Hash h)
      \/ NewHashFromBytes b = fail (ErrExpected32 (length b)))
  /\ ((exists h, NewHashFromHex s = ok h /\ wf_Hash h)
      \/ NewHashFromHex s
         = fail (ErrExpected32 (length (Common.FromHex s))))
  /\ ((exists h, NewHashFromString s = ok h /\ wf_Hash h)
      \/ NewHashFromString s = fail ErrParse).
Proof.
  split; [apply NewHashFromBigInt_wf|].
  split; [apply NewHashFromBytes_shape|]. split.
  - unfold NewHashFromHex.
    destruct (NewHashFromBytes_shape (ReverseByteOrder (Common.FromHex s)))
      as [H|H]; [now left|right].
    now rewrite ReverseByteOrder_length in H.
  - unfold NewHashFromString. destruct (Big.SetString10 s) as [z|].
    + left. eexists. split; [reflexivity|apply NewHashFromBigInt_wf].
    + now right.
Qed.

(** X5: for every hash [h], [NewBigIntFromHashBytes] applied to [h.Bytes()]
    returns the integer value of [h] when that value is below [Q], and the
    not-in-field error otherwise; it never fails on the length. *)
Theorem NewBigIntFromHashBytes_of_Bytes (h : Hash) :
  wf_Hash h ->
  NewBigIntFromHashBytes (Hash_Bytes h)
  = if Hash_BigInt h <? Constants.Q then ok (Hash_BigInt h)
    else fail ErrNotInField.
Proof.
  intros Hh. rewrite Hash_Bytes_rev by exact Hh.
  unfold NewBigIntFromHashBytes, ElemBytesLen, Utils.CheckBigIntInField.
  rewrite length_rev, Hh. cbn [Nat.eqb negb].
  rewrite <- Hh, <- length_rev, firstn_all.
  unfold Hash_BigInt. rewrite ReverseByteOrder_rev.
  now destruct (Big.SetBytes (rev h) <? Constants.Q).
Qed.

Lemma NewBigIntFromHashBytes_of_Bytes_witness :
  NewBigIntFromHashBytes (Hash_Bytes (NewHashFromBigInt Constants.Q))
  = fail ErrNotInField.
Proof.
  exact (NewBigIntFromHashBytes_of_Bytes (NewHashFromBigInt Constants.Q)
           eq_refl).
Defined.

(** X6: [BigInt] tells hashes apart: two hashes with the same integer
    value have the same 32 storage bytes. *)
Theorem Hash_BigInt_injective (h1 h2 : Hash) :
  wf_Hash h1 -> wf_Hash h2 ->
  Hash_BigInt h1 = Hash_BigInt h2 -> h1 = h2.
Proof.
  intros H1 H2 E.
  rewrite <- (NewHashFromBigInt_Hash_BigInt h1 H1).
  rewrite <- (NewHashFromBigInt_Hash_BigInt h2 H2).
  now rewrite E.
Qed.

Lemma Hash_BigInt_injective_witness :
  NewHashFromBigInt 7 = NewHashFromBigInt (-7).
Proof.
  apply (Hash_BigInt_injective (NewHashFromBigInt 7) (NewHashFromBigInt (-7)));
    reflexivity.
Defined.

(** X7: the integer value of a hash is never negative and below 2^256, and
    it is zero for [HashZero] and for no other hash. *)
Theorem Hash_BigInt_bounds_zero (h : Hash) :
  wf_Hash h ->
  0 <= Hash_BigInt h < 2 ^ 256
  /\ (Hash_BigInt h = 0 <-> h = HashZero).
Proof.
  intros Hh. split; [now apply Hash_BigInt_range|]. split.
  - intros E. rewrite <- (NewHashFromBigInt_Hash_BigInt h Hh), E.
    reflexivity.
  - intros ->. reflexivity.
Qed.

Lemma Hash_BigInt_bounds_zero_witness :
  0 <= Hash_BigInt (NewHashFromBigInt 12345678) < 2 ^ 256
  /\ (Hash_BigInt (NewHashFromBigInt 12345678) = 0
      <-> NewHashFromBigInt 12345678 = HashZero).
Proof.
  exact (Hash_BigInt_bounds_zero (NewHashFromBigInt 12345678) eq_refl).
Defined.

(** X8: [Bytes] returns 32 bytes which, read as a big-endian integer, are
    the integer value of the hash: the most significant byte comes first. *)
Theorem Hash_Bytes_big_endian (h : Hash) :
  wf_Hash h ->
  length (Hash_Bytes h) = 32%nat
  /\ Big.SetBytes (Hash_Bytes h) = Hash_BigInt h.
Proof.
  intros Hh. rewrite Hash_Bytes_rev by exact Hh. split.
  - now rewrite length_rev.
  - unfold Hash_BigInt. now rewrite ReverseByteOrder_rev.
Qed.

Lemma Hash_Bytes_big_endian_witness :
  length (Hash_Bytes (NewHashFromBigInt 258)) = 32%nat
  /\ Big.SetBytes (Hash_Bytes (NewHashFromBigInt 258))
     = Hash_BigInt (NewHashFromBigInt 258).
Proof.
  exact (Hash_Bytes_big_endian (NewHashFromBigInt 258) eq_refl).
Defined.

(** X9: for [0 <= n < 2^256], [Bytes] of the hash of [n] is the big-endian
    byte slice of [n] with zero bytes in front of it, up to 32 bytes. *)
Theorem Hash_Bytes_NewHashFromBigInt (n : Z) :
  0 <= n < 2 ^ 256 ->
  Hash_Bytes (NewHashFromBigInt n)
  = make (32 - length (Big.Bytes n)) ++ Big.Bytes n.
Proof.
  intros Hn. rewrite Hash_Bytes_rev by apply NewHashFromBigInt_wf.
  rewrite <- (Z2N.id n) by lia.
  rewrite NewHashFromBigInt_of_N, Bytes_of_N.
  - now rewrite rev_app_distr, rev_make, length_rev.
  - change (256 ^ 32)%N with (Z.to_N (2 ^ 256)). lia.
Qed.

Lemma Hash_Bytes_NewHashFromBigInt_witness :
  Hash_Bytes (NewHashFromBigInt 258) = make 30 ++ [x01; x02].
Proof.
  apply (Hash_Bytes_NewHashFromBigInt 258). lia.
Defined.

Section LiteralFacts.

Import Big.

Ltac each_char c :=
  destruct c as [[|] [|] [|] [|] [|] [|] [|] [|]].

(** [SetString10] reads the digits after the sign, and the sign decides
    only what it makes of them. *)
Lemma SetString10_scan (s : string) :
  exists f : N -> Z,
    SetString10 s = option_map f (scan_digits (unsigned_part s)).
Proof.
  destruct s as [|c s]; [now exists Z.of_N|].
  each_char c; eexists; reflexivity.
Qed.

Lemma is_decimal_literal_scan (s : string) :
  is_decimal_literal s = true
  <-> exists n, scan_digits (unsigned_part s) = Some n.
Proof.
  rewrite scan_digits_accepts. unfold is_decimal_literal.
  destruct (unsigned_part s) as [|c d].
  - split; [discriminate|]. now intros [H _].
  - split; [intros H; split; [discriminate|exact H]|now intros [_ H]].
Qed.

(** [SetString10] accepts the base-10 literals, and no other text. *)
Lemma SetString10_literal (s : string) :
  if is_decimal_literal s then exists z, SetString10 s = Some z
  else SetString10 s = None.
Proof.
  destruct (SetString10_scan s) as [f Hf]. rewrite Hf.
  pose proof (is_decimal_literal_scan s) as H.
  destruct (is_decimal_literal s).
  - destruct (proj1 H eq_refl) as [n ->]. now eexists.
  - destruct (scan_digits (unsigned_part s)) as [n|]; [|reflexivity].
    assert (false = true) by (apply H; now eexists). discriminate.
Qed.

Lemma all_digits_String_nonneg (v : N) :
  String_ (Z.of_N v) <> EmptyString
  /\ all_digits (String_ (Z.of_N v)) = true.
Proof.
  destruct v as [|p]; [split; [discriminate|reflexivity]|].
  apply scan_digits_accepts.
  unfold String_. cbn [Z.of_N Z.to_int NilZero.string_of_int].
  rewrite scan_digits_string_of_uint by apply Unsigned.to_uint_nonnil.
  now eexists.
Qed.

End LiteralFacts.

(** X10: for every hash [h], [UnmarshalText] of the text [h.MarshalText()]
    returns a nil error and leaves the receiver equal to [h], whatever the
    receiver held before. *)
Theorem UnmarshalText_MarshalText_roundtrip (h0 h : Hash) :
  wf_Hash h0 -> wf_Hash h ->
  Hash_UnmarshalText h0 (fst (Hash_MarshalText h)) = Returns (h, None).
Proof.
  intros H0 Hh. rewrite Hash_UnmarshalText_cases by exact H0.
  cbn [Hash_MarshalText fst].
  rewrite string_of_list_byte_of_string, SetString10_String.
  now rewrite NewHashFromBigInt_Hash_BigInt.
Qed.

Lemma UnmarshalText_MarshalText_roundtrip_witness :
  Hash_UnmarshalText HashZero
    (fst (Hash_MarshalText (NewHashFromBigInt (Constants.Q - 1))))
  = Returns (NewHashFromBigInt (Constants.Q - 1), None).
Proof.
  exact (UnmarshalText_MarshalText_roundtrip HashZero
           (NewHashFromBigInt (Constants.Q - 1)) eq_refl eq_refl).
Defined.

(** X11: [UnmarshalText] never returns a non-nil error: on a base-10
    literal (an optional sign, then digits) it returns nil, and on every
    other text, the empty one included, it panics on the nil hash. *)
Theorem Hash_UnmarshalText_outcomes (h : Hash) (b : list byte) :
  (Big.is_decimal_literal (string_of_list_byte b) = true ->
   exists h', Hash_UnmarshalText h b = Returns (h', None))
  /\ (Big.is_decimal_literal (string_of_list_byte b) = false ->
      Hash_UnmarshalText h b = Panics NilPointerDereference)
  /\ (forall h' e, Hash_UnmarshalText h b <> Returns (h', Some e)).
Proof.
  pose proof (SetString10_literal (string_of_list_byte b)) as H.
  unfold Hash_UnmarshalText, NewHashFromString.
  destruct (Big.is_decimal_literal (string_of_list_byte b)).
  - destruct H as [z ->]. cbv beta iota delta [ok].
    split; [intros _; now eexists|]. split; [discriminate|].
    intros h' e. discriminate.
  - rewrite H. cbv beta iota delta [fail].
    split; [discriminate|]. split; [reflexivity|].
    intros h' e. discriminate.
Qed.

Lemma Hash_UnmarshalText_outcomes_witness :
  (exists h', Hash_UnmarshalText HashZero (list_byte_of_string "+42")
              = Returns (h', None))
  /\ Hash_UnmarshalText HashZero [] = Panics NilPointerDereference.
Proof.
  split.
  - apply (proj1 (Hash_UnmarshalText_outcomes HashZero
                    (list_byte_of_string "+42"))).
    reflexivity.
  - apply (proj1 (proj2 (Hash_UnmarshalText_outcomes HashZero []))).
    reflexivity.
Defined.

(** X12: [NewHashFromString] succeeds exactly on the base-10 literals: an
    optional + or - sign followed by one decimal digit at least and nothing
    else. Every other text, such as the empty text, a lone sign, or digits
    with a space or a letter, gets the parse error. *)
Theorem NewHashFromString_accepts (s : string) :
  (Big.is_decimal_literal s = true ->
   exists h, NewHashFromString s = ok h /\ wf_Hash h)
  /\ (Big.is_decimal_literal s = false ->
      NewHashFromString s = fail ErrParse).
Proof.
  pose proof (SetString10_literal s) as H. unfold NewHashFromString.
  destruct (Big.is_decimal_literal s).
  - destruct H as [z ->]. split; [|discriminate].
    intros _. eexists. split; [reflexivity|apply NewHashFromBigInt_wf].
  - rewrite H. split; [discriminate|reflexivity].
Qed.

Lemma NewHashFromString_accepts_witness :
  (exists h, NewHashFromString "007" = ok h /\ wf_Hash h)
  /\ NewHashFromString "-" = fail ErrParse
  /\ NewHashFromString "12 " = fail ErrParse.
Proof.
  split; [|split].
  - apply (proj1 (NewHashFromString_accepts "007")). reflexivity.
  - apply (proj2 (NewHashFromString_accepts "-")). reflexivity.
  - apply (proj2 (NewHashFromString_accepts "12 ")). reflexivity.
Defined.

(** X14: [MarshalText] never returns an error, and its text is never empty
    and holds decimal digits only: no sign, no other character. *)
Theorem Hash_MarshalText_digits (h : Hash) :
  snd (Hash_MarshalText h) = None
  /\ string_of_list_byte (fst (Hash_MarshalText h)) <> EmptyString
  /\ Big.all_digits (string_of_list_byte (fst (Hash_MarshalText h))) = true.
Proof.
  split; [reflexivity|]. cbn [Hash_MarshalText fst].
  rewrite string_of_list_byte_of_string, Hash_BigInt_le_value.
  apply all_digits_String_nonneg.
Qed.

Section TextFacts.

Local Open Scope nat_scope.

Lemma string_length_append (s1 s2 : string) :
  String.length (s1 ++ s2)%string = String.length s1 + String.length s2.
Proof.
  induction s1 as [|c s1 IH]; [reflexivity|].
  cbn [append String.length]. now rewrite IH.
Qed.

Lemma substring_0_length (n : nat) (s : string) :
  n <= String.length s -> String.length (substring 0 n s) = n.
Proof.
  revert s. induction n as [|n IH]; intros s Hn.
  - now destruct s.
  - destruct s as [|c s]; [cbn in Hn; lia|].
    cbn [substring String.length] in *. rewrite IH; lia.
Qed.

End TextFacts.

Local Open Scope nat_scope.

(** X13: the text of [String] is never empty and never longer than 11
    characters, however large the integer value. *)
Theorem Hash_String_length (h : Hash) :
  1 <= String.length (Hash_String h) <= 11.
Proof.
  unfold Hash_String, numCharPrint.
  destruct (all_digits_String_nonneg (Big.le_value h)) as [Hne _].
  rewrite <- Hash_BigInt_le_value in Hne.
  destruct (Nat.ltb_spec (String.length (Big.String_ (Hash_BigInt h))) 8)
    as [Hlt|Hge].
  - destruct (Big.String_ (Hash_BigInt h)); [congruence|].
    cbn [String.length] in *. lia.
  - rewrite string_length_append, substring_0_length by exact Hge.
    cbn [String.length]. lia.
Qed.

(** X15: when [NewBigIntFromHashBytes b] returns an integer [v], [b] has 32
    bytes, [v] is a field element, [NewHashFromBytes b] is the hash of [v],
    and [Bytes] of that hash is [b] again. *)
Theorem NewBigIntFromHashBytes_ok_inv (b : list byte) (v : Z) :
  NewBigIntFromHashBytes b = ok v ->
  length b = 32
  /\ (0 <= v < Constants.Q)%Z
  /\ NewHashFromBytes b = ok (NewHashFromBigInt v)
  /\ Hash_Bytes (NewHashFromBigInt v) = b.
Proof.
  unfold NewBigIntFromHashBytes, ElemBytesLen, Utils.CheckBigIntInField.
  destruct (Nat.eqb_spec (length b) 32) as [Hb|Hb]; [|discriminate].
  cbn [negb]. rewrite firstn_all2 by (rewrite Hb; apply le_n).
  destruct (Z.ltb_spec (Big.SetBytes b) Constants.Q) as [Hlt|Hge];
    [|discriminate].
  cbn [negb]. intros [= <-].
  assert (Hr : wf_Hash (rev b)) by (unfold wf_Hash; now rewrite length_rev).
  assert (Hv : Big.SetBytes b = Hash_BigInt (rev b)).
  { unfold Hash_BigInt. now rewrite ReverseByteOrder_rev, rev_involutive. }
  rewrite Hv, NewHashFromBigInt_Hash_BigInt by exact Hr.
  split; [exact Hb|]. split.
  - pose proof (Hash_BigInt_range (rev b) Hr). lia.
  - split; [now apply NewHashFromBytes_32|].
    rewrite Hash_Bytes_rev by exact Hr. apply rev_involutive.
Qed.

Lemma NewBigIntFromHashBytes_ok_inv_witness :
  length (Big.Bytes (Constants.Q - 1)) = 32
  /\ (0 <= Constants.Q - 1 < Constants.Q)%Z
  /\ NewHashFromBytes (Big.Bytes (Constants.Q - 1))
     = ok (NewHashFromBigInt (Constants.Q - 1))
  /\ Hash_Bytes (NewHashFromBigInt (Constants.Q - 1))
     = Big.Bytes (Constants.Q - 1).
Proof.
  exact (NewBigIntFromHashBytes_ok_inv (Big.Bytes (Constants.Q - 1))
           (Constants.Q - 1)%Z eq_refl).
Defined.

(** X16: when the bytes [common.FromHex] decodes from a text are 32,
    [NewHashFromHex] returns them unchanged as the storage bytes: its own
    reversal and that of [NewHashFromBytes] cancel. *)
Theorem NewHashFromHex_stores_decoded (s : string) :
  length (Common.FromHex s) = 32 ->
  NewHashFromHex s = ok (Common.FromHex s).
Proof.
  intros Hs. unfold NewHashFromHex. rewrite ReverseByteOrder_rev.
  rewrite NewHashFromBytes_32 by (now rewrite length_rev).
  now rewrite rev_involutive.
Qed.

Lemma NewHashFromHex_stores_decoded_witness :
  NewHashFromHex
    "265baaf161e875c372d08e50f52abddc01d32efc93e90290bb8b3d9ceb94e70a"
  = ok (Common.FromHex
    "265baaf161e875c372d08e50f52abddc01d32efc93e90290bb8b3d9ceb94e70a").
Proof.
  apply NewHashFromHex_stores_decoded. reflexivity.
Defined.

Section LengthFacts.

Import Big.
Local Open Scope N_scope.

(** [v] has [k] base-256 digits at most exactly when it is below 256^k. *)
Lemma le_bytes_length_iff (v : N) (k : nat) :
  (length (le_bytes v) <= k)%nat <-> v < 256 ^ N.of_nat k.
Proof.
  split; [|apply le_bytes_length].
  intros Hk. pose proof (le_value_lt (le_bytes v)) as Hv.
  rewrite le_bytes_value in Hv.
  apply N.lt_le_trans with (1 := Hv).
  apply N.pow_le_mono_r; lia.
Qed.

Lemma Bytes_length_32 (n : Z) :
  length (Bytes n) = 32%nat <-> (2 ^ 248 <= Z.abs n < 2 ^ 256)%Z.
Proof.
  unfold Bytes. rewrite length_rev.
  pose proof (le_bytes_length_iff (Z.abs_N n) 32) as H32.
  pose proof (le_bytes_length_iff (Z.abs_N n) 31) as H31.
  change (256 ^ N.of_nat 32) with (Z.to_N (2 ^ 256)) in H32.
  change (256 ^ N.of_nat 31) with (Z.to_N (2 ^ 248)) in H31.
  pose proof (N2Z.inj_abs_N n) as Ha.
  assert (Hp248 : (0 < 2 ^ 248)%Z) by reflexivity.
  assert (Hp256 : (0 < 2 ^ 256)%Z) by reflexivity.
  split.
  - intros E. rewrite E in H32, H31.
    assert (H1 : Z.abs_N n < Z.to_N (2 ^ 256)) by (apply H32; lia).
    assert (H2 : ~ Z.abs_N n < Z.to_N (2 ^ 248)).
    { intros C. apply H31 in C. lia. }
    lia.
  - intros [Hlo Hhi].
    assert (H1 : (length (le_bytes (Z.abs_N n)) <= 32)%nat)
      by (apply H32; lia).
    assert (H2 : ~ (length (le_bytes (Z.abs_N n)) <= 31)%nat).
    { intros C. apply H31 in C. lia. }
    lia.
Qed.

End LengthFacts.

Local Open Scope Z_scope.

(** X17: [Hex] tells hashes apart: two hashes with the same hexadecimal
    text have the same storage bytes. *)
Theorem Hash_Hex_injective (h1 h2 : Hash) :
  Hash_Hex h1 = Hash_Hex h2 -> h1 = h2.
Proof.
  unfold Hash_Hex. intros E.
  apply (f_equal Hex.DecodeString) in E.
  rewrite !DecodeString_EncodeToString in E. now injection E.
Qed.

Lemma Hash_Hex_injective_witness :
  NewHashFromBigInt 7 = NewHashFromBigInt (-7).
Proof.
  apply (Hash_Hex_injective (NewHashFromBigInt 7) (NewHashFromBigInt (-7))).
  reflexivity.
Defined.

(** X18: [Hex] spells the storage bytes, which are those of [Bytes] in
    reversed order: the hexadecimal text of a hash is the encoding of
    [h.Bytes()] read from its last byte to its first, and it is the encoding
    of [h.Bytes()] itself exactly when the storage bytes read the same in
    both directions. *)
Theorem Hash_Hex_of_Bytes (h : Hash) :
  wf_Hash h ->
  Hash_Hex h = Hex.EncodeToString (ReverseByteOrder (Hash_Bytes h))
  /\ (Hash_Hex h = Hex.EncodeToString (Hash_Bytes h)
      <-> ReverseByteOrder h = h).
Proof.
  intros Hh. rewrite Hash_Bytes_rev by exact Hh.
  rewrite !ReverseByteOrder_rev, rev_involutive. unfold Hash_Hex.
  split; [reflexivity|]. split.
  - intros E. apply (f_equal Hex.DecodeString) in E.
    rewrite !DecodeString_EncodeToString in E. now injection E.
  - now intros ->.
Qed.

Lemma Hash_Hex_of_Bytes_witness :
  Hash_Hex (NewHashFromBigInt 258)
  = Hex.EncodeToString
      (ReverseByteOrder (Hash_Bytes (NewHashFromBigInt 258)))
  /\ (Hash_Hex (NewHashFromBigInt 258)
      = Hex.EncodeToString (Hash_Bytes (NewHashFromBigInt 258))
      <-> ReverseByteOrder (NewHashFromBigInt 258) = NewHashFromBigInt 258).
Proof.
  exact (Hash_Hex_of_Bytes (NewHashFromBigInt 258) eq_refl).
Defined.

(** X19: [NewHashFromBytes] applied to [n.Bytes()] returns the hash of [n]
    when the magnitude of [n] needs all 32 bytes, that is from 2^248 up to
    2^256 - 1; for a smaller or a larger magnitude [n.Bytes()] is not 32
    bytes long and the call fails with the length error. *)
Theorem NewHashFromBytes_of_big_Bytes (n : Z) :
  (2 ^ 248 <= Z.abs n < 2 ^ 256 ->
   NewHashFromBytes (Big.Bytes n) = ok (NewHashFromBigInt n))
  /\ (Z.abs n < 2 ^ 248 \/ 2 ^ 256 <= Z.abs n ->
      length (Big.Bytes n) <> 32%nat
      /\ NewHashFromBytes (Big.Bytes n)
         = fail (ErrExpected32 (length (Big.Bytes n)))).
Proof.
  split.
  - intros Hn. pose proof (proj2 (Bytes_length_32 n) Hn) as Hlen.
    rewrite NewHashFromBytes_32 by exact Hlen. f_equal. f_equal.
    unfold NewHashFromBigInt.
    rewrite ReverseByteOrder_rev, copy_same_length; [reflexivity|].
    now rewrite length_rev, make_length.
  - intros Hn.
    assert (Hlen : length (Big.Bytes n) <> 32%nat).
    { intros C. apply Bytes_length_32 in C. lia. }
    split; [exact Hlen|]. now apply NewHashFromBytes_not_32.
Qed.

Lemma NewHashFromBytes_of_big_Bytes_witness :
  NewHashFromBytes (Big.Bytes (Constants.Q - 1))
  = ok (NewHashFromBigInt (Constants.Q - 1))
  /\ NewHashFromBytes (Big.Bytes 1) = fail (ErrExpected32 1).
Proof.
  split.
  - apply (proj1 (NewHashFromBytes_of_big_Bytes (Constants.Q - 1))).
    vm_compute. split; discriminate || reflexivity.
  - apply (proj2 (NewHashFromBytes_of_big_Bytes 1)).
    left. reflexivity.
Defined.

(** X20: [NewHashFromString] checks no range: on the decimal text of any
    integer [z] it succeeds, and the hash it returns holds the magnitude of
    [z] modulo 2^256, be it a field element or not. *)
Theorem NewHashFromString_no_range_check (z : Z) :
  NewHashFromString (Big.String_ z) = ok (NewHashFromBigInt z)
  /\ Hash_BigInt (NewHashFromBigInt z) = Z.abs z mod 2 ^ 256.
Proof.
  split; [|apply Hash_BigInt_of_any].
  unfold NewHashFromString. now rewrite SetString10_String.
Qed.
